(** * Scoped contexts and scope stacks of TVM

    A shallow embedding of
      - [include/tvm/support/with.h]   : [With<ContextType>] and
        [WithGroup<ContextType>];
      - [include/tvm/ir/scope_stack.h] : [ScopeStack<T>].

    C++ calls are modelled as state-passing functions that end in one of
    three ways: they return, they throw, or the process dies. *)

From Equations Require Import Equations.
From stdpp Require Import base list strings numbers infinite.

Set Default Proof Using "Type".

(** ** Outcomes of a call *)

(** The payload of a thrown C++ exception (what [std::exception_ptr]
    refers to). *)
Definition exception := string.

(** Ways in which the process can die instead of returning or throwing. *)
Inductive fatal : Type :=
| StdTerminate      (* std::terminate() was called *)
| InvariantViolation (* a TVM_FFI_ICHECK failed *)
| UndefinedBehavior. (* the standard leaves the behaviour undefined *)

Inductive outcome (A : Type) : Type :=
| Returned (a : A)
| Threw (e : exception)
| Fatal (f : fatal).
Arguments Returned {A} a.
Arguments Threw {A} e.
Arguments Fatal {A} f.

Definition completed {A} (r : outcome A) : bool :=
  match r with
  | Fatal _ => false
  | _ => true
  end.

Definition inspect {A} (a : A) : {b | a = b} := exist _ a eq_refl.

(** * tvm/support/with.h *)

(** The interface the template parameter [ContextType] must offer: a
    constructor and the two hooks.  Each of them acts on the rest of the
    program's memory ([World]) and may throw. *)
Class ContextType (Ctx Args World : Type) := {
  construct : Args -> World -> outcome Ctx * World;
  EnterWithScope : Ctx -> World -> outcome unit * World;
  ExitWithScope : Ctx -> World -> outcome unit * World
}.

Module WithScope.
Section WithScope.
Context {Ctx Args World : Type} `{!ContextType Ctx Args World}.

(** The ordered log of what happened to the contexts; it is ghost state
    of the model, written by the model and read only by the theorems. *)
Inductive event : Type :=
| EnterHook (c : Ctx)  (* c.EnterWithScope() was invoked *)
| ExitHook (c : Ctx)   (* c.ExitWithScope() was invoked *)
| PopBack (c : Ctx).   (* the entry owning c left entries_ *)

Record env : Type := Env {
  world : World;
  uncaught_exceptions : nat;  (* std::uncaught_exceptions() *)
  events : list event
}.

Definition set_world (w : World) (s : env) : env :=
  Env w (uncaught_exceptions s) (events s).
Definition log (ev : event) (s : env) : env :=
  Env (world s) (uncaught_exceptions s) (events s ++ [ev]).

(** Calls that run in [env]. *)
Definition M (A : Type) : Type := env -> outcome A * env.

Definition ret {A} (a : A) : M A := fun s => (Returned a, s).
Definition bind {A B} (m : M A) (k : A -> M B) : M B :=
  fun s =>
    match m s with
    | (Returned a, s') => k a s'
    | (Threw e, s') => (Threw e, s')
    | (Fatal f, s') => (Fatal f, s')
    end.
Definition in_world {A} (f : World -> outcome A * World) : M A :=
  fun s => let '(r, w) := f (world s) in (r, set_world w s).
Definition emit (ev : event) : M unit := fun s => (Returned tt, log ev s).

(** A call through a [noexcept] function: an exception that reaches the
    function's boundary calls [std::terminate] ([except.spec]). *)
Definition noexcept {A} (m : M A) : M A :=
  fun s =>
    match m s with
    | (Threw _, s') => (Fatal StdTerminate, s')
    | r => r
    end.

(** ** [With<ContextType>] *)

Record With : Type := { ctx_ : Ctx }.

(** [explicit With(Args&&... args) : ctx_(args...) { ctx_.EnterWithScope(); }] *)
Definition With_ctor (args : Args) : M With :=
  bind (in_world (construct args)) (fun c =>
  bind (emit (EnterHook c)) (fun _ =>
  bind (in_world (EnterWithScope c)) (fun _ =>
  ret {| ctx_ := c |}))).

(** [~With() noexcept(false) { ctx_.ExitWithScope(); }]; what the
    destructor of [ctx_] itself does is left to [World]. *)
Definition With_dtor (w : With) : M unit :=
  bind (emit (ExitHook (ctx_ w))) (fun _ =>
  in_world (ExitWithScope (ctx_ w))).

(** [std::unique_ptr<With<ContextType>>::reset()] on a pointer that owns
    [w].  The deleter runs [delete p], that is [~With()]; [reset] itself
    is declared [noexcept] by the standard ([unique.ptr.single.modifiers]),
    so an exception leaving [~With()] does not leave [reset]. *)
Definition unique_ptr_reset (w : With) : M unit := noexcept (With_dtor w).

(** ** [WithGroup<ContextType>] *)

(** [entries_] in vector order: front first, back last.  Every
    [unique_ptr] stored in the vector owns a [With], so the pointers are
    identified with the objects they own. *)
Record WithGroup : Type := { entries_ : list With }.

(** [WithGroup() = default] *)
Definition WithGroup_default : WithGroup := {| entries_ := [] |}.

(** [size_t size() const] *)
Definition size (g : WithGroup) : nat := length (entries_ g).

(** [void Emplace(Args&&... args)]:
    [entries_.push_back(std::make_unique<With<ContextType>>(args...))]. *)
Definition Emplace (args : Args) (g : WithGroup) (s : env)
  : outcome unit * WithGroup * env :=
  match With_ctor args s with
  | (Returned w, s') => (Returned tt, {| entries_ := entries_ g ++ [w] |}, s')
  | (Threw e, s') => (Threw e, g, s')
  | (Fatal f, s') => (Fatal f, g, s')
  end.

(** Client code: one [Emplace] call per element of [argss], in order,
    stopping at the first call that does not return. *)
Fixpoint emplace_all (argss : list Args) (g : WithGroup) (s : env)
  : outcome unit * WithGroup * env :=
  match argss with
  | [] => (Returned tt, g, s)
  | args :: rest =>
      match Emplace args g s with
      | (Returned _, g', s') => emplace_all rest g' s'
      | other => other
      end
  end.

(** [WithGroup(WithGroup&&) = default]: the new group takes over the
    vector of [other], which is left empty.  Returns the new group and
    what remains of [other]. *)
Definition WithGroup_move_ctor (other : WithGroup) : WithGroup * WithGroup :=
  ({| entries_ := entries_ other |}, {| entries_ := [] |}).

(** [~unique_ptr()], which is [noexcept] as well. *)
Definition unique_ptr_dtor (w : With) : M unit := noexcept (With_dtor w).

(** What a vector does to the elements it drops.  The order is the
    library's; libstdc++ goes from the front to the back. *)
Fixpoint destroy_range (ws : list With) : M unit :=
  match ws with
  | [] => ret tt
  | w :: ws' => bind (unique_ptr_dtor w) (fun _ => destroy_range ws')
  end.

(** [WithGroup& operator=(WithGroup&&) = default]: [this] takes over the
    vector of [other] and drops the entries it held before.  Returns
    [this] and what remains of [other]. *)
Definition WithGroup_move_assign (this other : WithGroup) (s : env)
  : outcome unit * (WithGroup * WithGroup) * env :=
  match destroy_range (entries_ this) s with
  | (Returned _, s') =>
      (Returned tt, ({| entries_ := entries_ other |}, {| entries_ := [] |}), s')
  | (Threw e, s') => (Threw e, (this, other), s')
  | (Fatal f, s') => (Fatal f, (this, other), s')
  end.

(** The contexts whose exit hook the log shows as invoked, in order. *)
Definition exit_hooks (evs : list event) : list Ctx :=
  omap (fun ev => match ev with ExitHook c => Some c | _ => None end) evs.

(** The errors the exit hooks of [ws] throw when they are invoked one
    after the other, in the order of [ws], starting in world [m]. *)
Fixpoint exit_errors (ws : list With) (m : World) : list exception :=
  match ws with
  | [] => []
  | w :: ws' =>
      match ExitWithScope (ctx_ w) m with
      | (Threw e, m') => e :: exit_errors ws' m'
      | (_, m') => exit_errors ws' m'
      end
  end.

(** [explicit operator bool] of [std::exception_ptr]. *)
Definition holds_exception (p : option exception) : bool :=
  match p with
  | Some _ => true
  | None => false
  end.

(** The [while (!entries_.empty())] loop of the destructor.  [reset] is
    what [entry.reset()] does to the entry moved out of the vector. *)
Section Teardown.
Variable reset : With -> M unit.

Equations teardown (unwinding : bool) (entries : list With)
    (first_exc : option exception) (s : env)
  : outcome (option exception) * list With * env
  by wf (length entries) lt :=
teardown unwinding entries first_exc s with inspect (last entries) := {
  | @exist None _ => (Returned first_exc, entries, s)
  | @exist (Some entry) Hback =>
      (* auto entry = std::move(entries_.back()); entries_.pop_back(); *)
      let entries' := removelast entries in
      let s1 := log (PopBack (ctx_ entry)) s in
      (* try { entry.reset(); } catch (...) { ... } *)
      match reset entry s1 with
      | (Returned _, s2) => teardown unwinding entries' first_exc s2
      | (Threw e, s2) =>
          (* if (!unwinding && !first_exc) first_exc = std::current_exception(); *)
          teardown unwinding entries'
            (if negb unwinding && negb (holds_exception first_exc)
             then Some e else first_exc) s2
      | (Fatal f, s2) => (Fatal f, entries', s2)
      end }.
Next Obligation.
  destruct entries as [|w l _] using rev_ind; [done|].
  rewrite removelast_last, length_app. simpl. lia.
Qed.
Next Obligation.
  destruct entries as [|w l _] using rev_ind; [done|].
  rewrite removelast_last, length_app. simpl. lia.
Qed.

(** The destructor body around the loop. *)
Definition destroy_with (g : WithGroup) (s : env)
  : outcome unit * WithGroup * env :=
  (* bool unwinding = std::uncaught_exceptions() > 0; *)
  let unwinding := bool_decide (0 < uncaught_exceptions s) in
  (* std::exception_ptr first_exc; *)
  match teardown unwinding (entries_ g) None s with
  | (Returned (Some e), entries, s') =>
      (* if (first_exc) std::rethrow_exception(first_exc); *)
      (Threw e, {| entries_ := entries |}, s')
  | (Returned None, entries, s') => (Returned tt, {| entries_ := entries |}, s')
  | (Threw e, entries, s') => (Threw e, {| entries_ := entries |}, s')
  | (Fatal f, entries, s') => (Fatal f, {| entries_ := entries |}, s')
  end.

End Teardown.

(** [~WithGroup() noexcept(false)] *)
Definition WithGroup_dtor : WithGroup -> env -> outcome unit * WithGroup * env :=
  destroy_with unique_ptr_reset.

End WithScope.

Arguments event Ctx : clear implicits.
Arguments env Ctx World : clear implicits.
Arguments M Ctx World A : clear implicits.
Arguments With Ctx : clear implicits.
Arguments WithGroup Ctx : clear implicits.

End WithScope.

(** * tvm/ir/scope_stack.h *)

Module ScopeStack.

(** The address of the storage of one deque element. *)
Definition loc := positive.

(** Where [std::deque] puts a new element: in storage that no element
    of the deque occupies.  Storage of a popped element may be handed out
    again. *)
Class Allocator := {
  alloc : list loc -> loc;
  alloc_fresh : forall used : list loc, alloc used ∉ used
}.

(** Modelled from the spec: [TVM_FFI_ICHECK] of [tvm/ffi/error.h], a
    header outside the two files embedded here.  The spec calls its
    failure an invariant violation that is fatal and not recoverable; a
    check that holds has no effect. *)
Definition TVM_FFI_ICHECK (cond : bool) : outcome unit :=
  if cond then Returned tt else Fatal InvariantViolation.

(** What the template parameter [T] must offer: [T()], the value a new
    element starts with.  Creating and destroying a [T] is taken to
    return. *)
Class DefaultConstructible (T : Type) := T_default : T.

Section ScopeStack.
Context {T V : Type} `{!DefaultConstructible T} `{!Allocator}.

(** One element of [stack_] together with the place it lives at.
    [std::deque] never moves an element when others are pushed or popped
    at the back, so the address is fixed when the element is created. *)
Record cell : Type := Cell { addr : loc; content : T }.

(** The ordered log of the calls made on the stack (ghost state). *)
Inductive event : Type :=
| EvPush (l : loc)                (* stack_.emplace_back() created l *)
| EvPop (l : loc)                 (* stack_.pop_back() destroyed l *)
| EvSize (n : nat)                (* size() returned n *)
| EvEmpty (b : bool)              (* empty() returned b *)
| EvCurrent (r : outcome loc)     (* how Current() ended *)
| EvDeref (l : loc) (valid : bool). (* a reference to l was used *)

Record state : Type := State {
  stack_ : list cell;   (* std::deque<T> stack_, front first *)
  trace : list event
}.

Definition record (ev : event) (s : state) : state :=
  State (stack_ s) (trace s ++ [ev]).

Definition addrs (s : state) : list loc := map addr (stack_ s).

(** [stack_.emplace_back()] *)
Definition emplace_back (s : state) : state :=
  let l := alloc (addrs s) in
  State (stack_ s ++ [Cell l T_default]) (trace s ++ [EvPush l]).

(** [stack_.pop_back()]; undefined on an empty deque ([None]). *)
Definition pop_back (s : state) : option state :=
  match last (stack_ s) with
  | Some c => Some (State (removelast (stack_ s)) (trace s ++ [EvPop (addr c)]))
  | None => None
  end.

(** [ScopeStack() { stack_.emplace_back(); }] *)
Definition ScopeStack_ctor : state := emplace_back (State [] []).

(** [size_t size() const { return stack_.size(); }] *)
Definition size (s : state) : nat := length (stack_ s).

(** [bool empty() const { return stack_.empty(); }] *)
Definition empty (s : state) : bool :=
  match stack_ s with
  | [] => true
  | _ :: _ => false
  end.

(** [stack_.back()]; undefined on an empty deque. *)
Definition back (s : state) : outcome loc :=
  match last (stack_ s) with
  | Some c => Returned (addr c)
  | None => Fatal UndefinedBehavior
  end.

(** [T& Current() { TVM_FFI_ICHECK(!stack_.empty()); return stack_.back(); }] *)
Definition Current (s : state) : outcome loc :=
  match TVM_FFI_ICHECK (negb (empty s)) with
  | Returned _ => back s
  | Threw e => Threw e
  | Fatal f => Fatal f
  end.

(** [const T& Current() const], with the same body. *)
Definition Current_const (s : state) : outcome loc :=
  match TVM_FFI_ICHECK (negb (empty s)) with
  | Returned _ => back s
  | Threw e => Threw e
  | Fatal f => Fatal f
  end.

(** [auto WithNewScope(F&& body) -> decltype(body())].  [Guard]'s
    destructor pops on both ways out of [body]; when the process dies
    inside [body] nothing more runs. *)
Definition WithNewScope {R} (body : state -> outcome R * state) (s : state)
  : outcome R * state :=
  (* stack_.emplace_back(); Guard guard{&stack_}; *)
  let s1 := emplace_back s in
  match body s1 with
  | (Fatal f, s2) => (Fatal f, s2)
  | (r, s2) =>
      (* ~Guard() noexcept(false) { stack->pop_back(); } *)
      match pop_back s2 with
      | Some s3 => (r, s3)
      | None => (Fatal UndefinedBehavior, s2)
      end
  end.

(** Use of a reference obtained from [Current()]. *)
Definition deref (l : loc) (s : state) : option T :=
  content <$> find (fun c => bool_decide (addr c = l)) (stack_ s).

Definition assign (l : loc) (x : T) (s : state) : state :=
  State (map (fun c => if bool_decide (addr c = l) then Cell l x else c) (stack_ s))
        (trace s).

(** Client code: everything a caller, and the body it passes to
    [WithNewScope], can do with a [ScopeStack<T>] through the members the
    class declares and through the references [Current()] hands out.
    [V] is the type of the values bodies return; a [void] body returns
    a value that carries nothing. *)
Inductive prog : Type :=
| Return (v : V)
| Throw (e : exception)
| CallSize (k : nat -> prog)
| CallEmpty (k : bool -> prog)
| CallCurrent (const : bool) (k : loc -> prog)
| ReadRef (l : loc) (k : T -> prog)
| WriteRef (l : loc) (x : T) (k : prog)
| CallWithNewScope (body : prog) (k : V -> prog)
| TryCatch (block : prog) (handler : exception -> prog) (k : V -> prog).

Fixpoint run (p : prog) (s : state) : outcome V * state :=
  match p with
  | Return v => (Returned v, s)
  | Throw e => (Threw e, s)
  | CallSize k => run (k (size s)) (record (EvSize (size s)) s)
  | CallEmpty k => run (k (empty s)) (record (EvEmpty (empty s)) s)
  | CallCurrent const k =>
      let r := if const then Current_const s else Current s in
      let s1 := record (EvCurrent r) s in
      match r with
      | Returned l => run (k l) s1
      | Threw e => (Threw e, s1)
      | Fatal f => (Fatal f, s1)
      end
  | ReadRef l k =>
      match deref l s with
      | Some x => run (k x) (record (EvDeref l true) s)
      | None => (Fatal UndefinedBehavior, record (EvDeref l false) s)
      end
  | WriteRef l x k =>
      match deref l s with
      | Some _ => run k (record (EvDeref l true) (assign l x s))
      | None => (Fatal UndefinedBehavior, record (EvDeref l false) s)
      end
  | CallWithNewScope body k =>
      match WithNewScope (run body) s with
      | (Returned v, s1) => run (k v) s1
      | (Threw e, s1) => (Threw e, s1)
      | (Fatal f, s1) => (Fatal f, s1)
      end
  | TryCatch block handler k =>
      match run block s with
      | (Returned v, s1) => run (k v) s1
      | (Threw e, s1) =>
          match run (handler e) s1 with
          | (Returned v, s2) => run (k v) s2
          | (Threw e', s2) => (Threw e', s2)
          | (Fatal f, s2) => (Fatal f, s2)
          end
      | (Fatal f, s1) => (Fatal f, s1)
      end
  end.

(** What the log of a run that started with the elements at [base] shows
    when none of them was removed and every reference to one of them
    was good when it was used. *)
Definition event_ok (base : list loc) (ev : event) : Prop :=
  match ev with
  | EvPop l => l ∉ base
  | EvDeref l valid => l ∈ base -> valid = true
  | _ => True
  end.

(** What the log shows when the stack held an element at every call. *)
Definition nonempty_ok (ev : event) : Prop :=
  match ev with
  | EvSize n => 1 <= n
  | EvEmpty b => b = false
  | EvCurrent r => exists l, r = Returned l
  | _ => True
  end.

(** A run from [s] to [s'] that only added to the log, kept the elements
    of [s] in place, and met no failed check if [s] was not empty. *)
Definition good_run {R} (s : state) (o : outcome R) (s' : state) : Prop :=
  exists new,
    trace s' = trace s ++ new /\
    (completed o = true -> addrs s' = addrs s) /\
    Forall (event_ok (addrs s)) new /\
    (stack_ s <> [] -> Forall nonempty_ok new /\ o <> Fatal InvariantViolation).

(** [ScopeStack(ScopeStack&&)], which the class does not declare and the
    compiler therefore generates, public: the new stack takes over the
    deque of [other], elements and storage, and [other] is left with an
    empty deque.  Returns the new stack and what remains of [other]. *)
Definition ScopeStack_move_ctor (other : state) : state * state :=
  (State (stack_ other) (trace other), State [] (trace other)).

(** Client code: [p] inside [n] nested [WithNewScope] calls, each of
    which returns what its body returns. *)
Fixpoint nest (n : nat) (p : prog) : prog :=
  match n with
  | 0 => p
  | S n' => CallWithNewScope (nest n' p) Return
  end.

End ScopeStack.

Arguments cell T : clear implicits.
Arguments state T : clear implicits.
Arguments prog T V : clear implicits.

End ScopeStack.

(** * [ScopeStack<WithGroup<ContextType>>]

    The use the header of [ScopeStack] describes: every scope holds a
    group of contexts, [Current().Emplace(...)] enters a context in the
    innermost scope, and leaving a scope destroys its group. *)

Module ScopedGroups.
Section ScopedGroups.
Import WithScope.
Context {Ctx Args World : Type} `{!ContextType Ctx Args World}.

(** [std::deque<WithGroup<ContextType>> stack_], front first. *)
Definition stack : Type := list (WithGroup Ctx).

(** Calls on the stack, in a program state. *)
Definition call (R : Type) : Type :=
  stack -> env Ctx World -> outcome R * stack * env Ctx World.

(** [ScopeStack() { stack_.emplace_back(); }] *)
Definition ScopeStack_ctor : stack := [WithGroup_default].

(** [stack.Current().Emplace(args...)] *)
Definition Current_Emplace (args : Args) : call unit :=
  fun st s =>
    (* TVM_FFI_ICHECK(!stack_.empty()); return stack_.back(); *)
    match ScopeStack.TVM_FFI_ICHECK (negb (bool_decide (st = []))), last st with
    | Returned _, Some g =>
        let '(r, g', s') := Emplace args g s in
        (r, removelast st ++ [g'], s')
    | Returned _, None => (Fatal UndefinedBehavior, st, s)
    | Threw e, _ => (Threw e, st, s)
    | Fatal f, _ => (Fatal f, st, s)
    end.

(** [stack_.pop_back()]: the last group is destroyed, by [~WithGroup()],
    and removed.  On an empty deque, and for a destructor that throws
    inside the container ([res.on.functions]), the standard leaves the
    behaviour undefined. *)
Definition pop_back : call unit :=
  fun st s =>
    match last st with
    | None => (Fatal UndefinedBehavior, st, s)
    | Some g =>
        match WithGroup_dtor g s with
        | (Returned _, _, s') => (Returned tt, removelast st, s')
        | (Threw _, g', s') => (Fatal UndefinedBehavior, removelast st ++ [g'], s')
        | (Fatal f, g', s') => (Fatal f, removelast st ++ [g'], s')
        end
    end.

Definition set_uncaught (n : nat) (s : env Ctx World) : env Ctx World :=
  Env (world s) n (events s).

(** [auto WithNewScope(F&& body) -> decltype(body())].  When [body]
    throws, [~Guard()] runs while that exception is in flight. *)
Definition WithNewScope {R} (body : call R) : call R :=
  fun st s =>
    (* stack_.emplace_back(); Guard guard{&stack_}; *)
    match body (st ++ [WithGroup_default]) s with
    | (Returned v, st2, s2) =>
        (* ~Guard() noexcept(false) { stack->pop_back(); } *)
        match pop_back st2 s2 with
        | (Returned _, st3, s3) => (Returned v, st3, s3)
        | (Threw e, st3, s3) => (Threw e, st3, s3)
        | (Fatal f, st3, s3) => (Fatal f, st3, s3)
        end
    | (Threw e, st2, s2) =>
        match pop_back st2 (set_uncaught (S (uncaught_exceptions s2)) s2) with
        | (Returned _, st3, s3) =>
            (Threw e, st3, set_uncaught (uncaught_exceptions s2) s3)
        | (Threw _, st3, s3) => (Fatal StdTerminate, st3, s3)
        | (Fatal f, st3, s3) => (Fatal f, st3, s3)
        end
    | (Fatal f, st2, s2) => (Fatal f, st2, s2)
    end.

(** Client code, the body of a scope: one [Current().Emplace] call per
    element of [argss], in order, up to the first that does not return. *)
Fixpoint emplace_each (argss : list Args) : call unit :=
  fun st s =>
    match argss with
    | [] => (Returned tt, st, s)
    | args :: rest =>
        match Current_Emplace args st s with
        | (Returned _, st', s') => emplace_each rest st' s'
        | other => other
        end
    end.

End ScopedGroups.
End ScopedGroups.

(** * Instances to run the definitions on *)

Module Probe.

(** A context that counts in the world how many contexts are entered, and
    whose constructor and hooks throw what its fields say. *)
Record probe : Type := {
  label : string;
  ctor_error : option exception;
  enter_error : option exception;
  exit_error : option exception
}.

Definition raise_if {A} (err : option exception) (a : A) : outcome A :=
  match err with
  | Some e => Threw e
  | None => Returned a
  end.

#[export] Instance probe_context : ContextType probe probe nat := {
  construct args depth := (raise_if (ctor_error args) args, depth);
  EnterWithScope c depth := (raise_if (enter_error c) tt, S depth);
  ExitWithScope c depth := (raise_if (exit_error c) tt, pred depth)
}.

Definition quiet (name : string) : probe :=
  {| label := name; ctor_error := None; enter_error := None; exit_error := None |}.
Definition failing_ctor (name : string) (e : exception) : probe :=
  {| label := name; ctor_error := Some e; enter_error := None; exit_error := None |}.
Definition failing_enter (name : string) (e : exception) : probe :=
  {| label := name; ctor_error := None; enter_error := Some e; exit_error := None |}.
Definition failing_exit (name : string) (e : exception) : probe :=
  {| label := name; ctor_error := None; enter_error := None; exit_error := Some e |}.

(** The entry [Emplace] adds for a context. *)
Definition entry (c : probe) : WithScope.With probe :=
  {| WithScope.ctx_ := c |}.

(** A program state in which [n] exceptions are in flight. *)
Definition start (n : nat) : WithScope.env probe nat :=
  {| WithScope.world := 0; WithScope.uncaught_exceptions := n; WithScope.events := [] |}.

(** An allocator that hands out the first address not in use. *)
#[export] Instance first_free : ScopeStack.Allocator := {|
  ScopeStack.alloc := fresh;
  ScopeStack.alloc_fresh := infinite_is_fresh
|}.

(** Scope elements that are counters, starting at zero. *)
#[export] Instance counter_default : ScopeStack.DefaultConstructible nat := 0.

(** Client code that keeps the reference to the base scope across two
    nested scopes, the inner of which throws, and uses it afterwards. *)
Definition nested_client : ScopeStack.prog nat nat :=
  ScopeStack.CallCurrent false (fun outer =>
  ScopeStack.WriteRef outer 7 (
  ScopeStack.TryCatch
    (ScopeStack.CallWithNewScope
       (ScopeStack.CallCurrent true (fun inner =>
        ScopeStack.WriteRef inner 5 (
        ScopeStack.CallWithNewScope
          (ScopeStack.Throw "failure")
          (fun v => ScopeStack.Return v))))
       (fun v => ScopeStack.Return v))
    (fun e => ScopeStack.CallEmpty (fun b =>
              ScopeStack.CallSize (fun n => ScopeStack.Return n)))
    (fun n => ScopeStack.ReadRef outer (fun x => ScopeStack.Return (n + x))))).

(** A body that opens a scope of its own and then throws. *)
Definition throwing_body : ScopeStack.prog nat nat :=
  ScopeStack.CallWithNewScope
    (ScopeStack.Return 1)
    (fun _ => ScopeStack.Throw "failure").

End Probe.

(** * Facts about [With] and [WithGroup] *)

Section WithScopeFacts.
Context {Ctx Args World : Type} `{!ContextType Ctx Args World}.
Import WithScope.
Implicit Types (g : WithGroup Ctx) (s : env Ctx World) (w : With Ctx).
Implicit Types (reset : With Ctx -> M Ctx World unit).

Lemma teardown_nil reset unwinding first_exc s :
  teardown reset unwinding [] first_exc s = (Returned first_exc, [], s).
Proof. by simp teardown. Qed.

Lemma teardown_snoc reset unwinding entries entry first_exc s :
  teardown reset unwinding (entries ++ [entry]) first_exc s =
  match reset entry (log (PopBack (ctx_ entry)) s) with
  | (Returned _, s2) => teardown reset unwinding entries first_exc s2
  | (Threw e, s2) =>
      teardown reset unwinding entries
        (if negb unwinding && negb (holds_exception first_exc)
         then Some e else first_exc) s2
  | (Fatal f, s2) => (Fatal f, entries, s2)
  end.
Proof.
  rewrite teardown_equation_1.
  destruct (inspect (last (entries ++ [entry]))) as [[w|] Hw];
    pose proof Hw as Hback; rewrite last_snoc in Hback; [|done].
  injection Hback as <-. simpl. by rewrite removelast_last.
Qed.

(** Whatever [entry.reset()] does, a loop that runs to its end has
    emptied [entries_]. *)
Lemma teardown_completed_empty reset unwinding entries first_exc s r rest s' :
  teardown reset unwinding entries first_exc s = (r, rest, s') ->
  completed r = true -> rest = [].
Proof.
  revert first_exc s.
  induction entries as [|entry entries IH] using rev_ind; intros first_exc s Hrun Hr.
  - rewrite teardown_nil in Hrun. by simplify_eq.
  - rewrite teardown_snoc in Hrun.
    destruct (reset entry _) as [[?|e|f] s2]; [by eauto..|].
    by simplify_eq.
Qed.

Lemma destroy_with_completed_empty reset g s r g' s' :
  destroy_with reset g s = (r, g', s') -> completed r = true -> size g' = 0.
Proof.
  unfold destroy_with. intros Hrun Hr.
  destruct (teardown _ _ _ _ _) as [[r1 rest] s1] eqn:Hloop.
  assert (completed r1 = true -> rest = []) as Hrest
    by eauto using teardown_completed_empty.
  destruct r1 as [[e|]|e|f]; simplify_eq; simpl in *; by rewrite Hrest.
Qed.

(** [unique_ptr::reset] never lets an exception out. *)
Lemma unique_ptr_reset_no_throw w s e s' :
  unique_ptr_reset w s <> (Threw e, s').
Proof.
  unfold unique_ptr_reset, noexcept.
  by destruct (With_dtor w s) as [[?|?|?] ?].
Qed.

(** Hence the handler of the loop never records an error. *)
Lemma teardown_records_nothing unwinding entries s r rest s' :
  teardown unique_ptr_reset unwinding entries None s = (r, rest, s') ->
  r = Returned None \/ r = Fatal StdTerminate \/ exists f, r = Fatal f.
Proof.
  revert s. induction entries as [|entry entries IH] using rev_ind; intros s Hrun.
  - rewrite teardown_nil in Hrun. left. by simplify_eq.
  - rewrite teardown_snoc in Hrun.
    destruct (unique_ptr_reset entry _) as [[?|e|f] s2] eqn:Hreset.
    + eauto.
    + by apply unique_ptr_reset_no_throw in Hreset.
    + right. right. exists f. by simplify_eq.
Qed.

(** The destructor of a group never propagates a teardown error. *)
Lemma WithGroup_dtor_never_throws g s e g' s' :
  WithGroup_dtor g s <> (Threw e, g', s').
Proof.
  unfold WithGroup_dtor, destroy_with. intros Hrun.
  destruct (teardown _ _ _ _ _) as [[r1 rest] s1] eqn:Hloop.
  apply teardown_records_nothing in Hloop as [->|[->|[f ->]]]; simplify_eq.
Qed.

(** [n] successful [Emplace] calls add [n] entries, in call order, behind
    the entries the group had. *)
Lemma emplace_all_entries argss g s r g' s' :
  emplace_all argss g s = (r, g', s') -> r = Returned tt ->
  exists ws, entries_ g' = entries_ g ++ ws /\ length ws = length argss.
Proof.
  revert g s. induction argss as [|args argss IH]; intros g s Hrun ->; simpl in Hrun.
  - simplify_eq. exists []. by rewrite app_nil_r.
  - unfold Emplace in Hrun.
    destruct (With_ctor args s) as [[w|e|f] s1]; simplify_eq.
    destruct (IH _ _ Hrun eq_refl) as (ws & Hws & Hlen).
    exists (w :: ws). simpl in *. split; [|by rewrite Hlen].
    by rewrite Hws, <- app_assoc.
Qed.

Lemma emplace_all_size argss g s g' s' :
  emplace_all argss g s = (Returned tt, g', s') -> size g' = size g + length argss.
Proof.
  intros Hrun. destruct (emplace_all_entries _ _ _ _ _ _ Hrun eq_refl) as (ws & Hws & Hlen).
  unfold size. by rewrite Hws, length_app, Hlen.
Qed.

(** When no exit hook throws, the destructor pops and exits every entry,
    the most recently emplaced first, and returns. *)
Lemma WithGroup_dtor_all_exits_return g s :
  (forall (c : Ctx) (m : World), (ExitWithScope c m).1 = Returned tt) ->
  exists s',
    WithGroup_dtor g s = (Returned tt, WithGroup_default, s') /\
    events s' = events s ++
      flat_map (fun w => [PopBack (ctx_ w); ExitHook (ctx_ w)]) (rev (entries_ g)).
Proof.
  intros Hexit. unfold WithGroup_dtor, destroy_with.
  generalize (bool_decide (0 < uncaught_exceptions s)). intros unwinding.
  destruct g as [entries]. simpl. revert s.
  induction entries as [|entry entries IH] using rev_ind; intros s.
  - rewrite teardown_nil. exists s. by rewrite app_nil_r.
  - rewrite teardown_snoc, rev_unit. simpl.
    unfold unique_ptr_reset, noexcept, With_dtor, bind, emit, in_world. simpl.
    specialize (Hexit (ctx_ entry) (world s)).
    destruct (ExitWithScope (ctx_ entry) (world s)) as [r m'].
    simpl in Hexit. subst r.
    match goal with |- context [teardown _ _ _ _ ?s1] => destruct (IH s1) as (s' & Hrun & Hev) end.
    exists s'. split; [done|].
    rewrite Hev. simpl. by rewrite <- !app_assoc.
Qed.


Lemma With_dtor_run w s :
  With_dtor w s =
  ((ExitWithScope (ctx_ w) (world s)).1,
   set_world (ExitWithScope (ctx_ w) (world s)).2 (log (ExitHook (ctx_ w)) s)).
Proof.
  unfold With_dtor, bind, emit, in_world. simpl.
  by destruct (ExitWithScope (ctx_ w) (world s)).
Qed.

(** The [catch] handler of the loop, taken by itself, keeps the first
    error and drops the rest: were [entry.reset()] to let the exception
    of [~With()] through (here: [With_dtor] in its place), the destructor
    would exit every entry, the most recently emplaced first, and then
    throw the first error, or none when an exception was in flight. *)
Lemma handler_keeps_first_error g s :
  (forall (c : Ctx) (m : World) f, (ExitWithScope c m).1 <> Fatal f) ->
  exists s',
    destroy_with With_dtor g s =
      (match exit_errors (rev (entries_ g)) (world s) with
       | e :: _ => if bool_decide (0 < uncaught_exceptions s)
                   then Returned tt else Threw e
       | [] => Returned tt
       end, WithGroup_default, s') /\
    exit_hooks (events s') = exit_hooks (events s) ++ rev (map ctx_ (entries_ g)).
Proof.
  intros Hhooks. unfold destroy_with.
  set (unwinding := bool_decide (0 < uncaught_exceptions s)).
  assert (forall entries first_exc s0, exists s',
    teardown With_dtor unwinding entries first_exc s0 =
      (Returned (if holds_exception first_exc then first_exc
                 else if unwinding then None
                 else head (exit_errors (rev entries) (world s0))), [], s') /\
    exit_hooks (events s') = exit_hooks (events s0) ++ rev (map ctx_ entries))
    as Hloop.
  { induction entries as [|entry entries IH] using rev_ind; intros first_exc s0.
    - rewrite teardown_nil. exists s0. rewrite app_nil_r. split; [|done].
      simpl. destruct first_exc, unwinding; done.
    - rewrite teardown_snoc, map_app, rev_unit, With_dtor_run. simpl.
      pose proof (Hhooks (ctx_ entry) (world s0)) as Hlive.
      destruct (ExitWithScope (ctx_ entry) (world s0)) as [[[]|e|f] m'];
        [| |by destruct (Hlive f)]; simpl.
      + match goal with |- context [teardown _ _ _ ?fe ?s1] =>
          destruct (IH fe s1) as (s' & -> & Hev) end.
        exists s'. split; [done|]. rewrite Hev. simpl.
        unfold exit_hooks. rewrite !omap_app, (rev_unit (map ctx_ entries)). simpl.
        by rewrite app_nil_r, <- app_assoc.
      + match goal with |- context [teardown _ _ _ ?fe ?s1] =>
          destruct (IH fe s1) as (s' & -> & Hev) end.
        exists s'. split.
        * destruct first_exc, unwinding; done.
        * rewrite Hev. simpl.
          unfold exit_hooks. rewrite !omap_app, (rev_unit (map ctx_ entries)). simpl.
          by rewrite app_nil_r, <- app_assoc. }
  destruct (Hloop (entries_ g) None s) as (s' & -> & Hev).
  exists s'. split; [|done]. simpl.
  destruct (exit_errors _ _), unwinding; done.
Qed.

(** C6: when the construction of the context or its enter hook throws,
    [Emplace] throws the same error to its caller, the group is what it
    was before the call (so is its [size()]), and the log shows no exit
    hook invoked by the call. *)
Theorem Emplace_failure_leaves_group args g s e :
  (construct args (world s)).1 = Threw e \/
  (exists (c : Ctx) (m : World),
      construct args (world s) = (Returned c, m) /\
      (EnterWithScope c m).1 = Threw e) ->
  exists s',
    Emplace args g s = (Threw e, g, s') /\
    exit_hooks (events s') = exit_hooks (events s).
Proof.
  unfold Emplace, With_ctor, bind, in_world, emit, ret.
  intros [Hctor|(c & m & Hctor & Henter)].
  - destruct (construct args (world s)) as [r m]. simpl in *. subst r.
    by eexists.
  - rewrite Hctor. simpl.
    destruct (EnterWithScope c m) as [r m']. simpl in *. subst r.
    eexists. split; [done|]. simpl.
    unfold exit_hooks. rewrite omap_app. simpl. by rewrite app_nil_r.
Qed.

(** A destructor that completes, by returning or by throwing, leaves a
    group without entries. *)
Theorem WithGroup_dtor_leaves_no_entries g s r g' s' :
  WithGroup_dtor g s = (r, g', s') -> completed r = true -> size g' = 0.
Proof. apply destroy_with_completed_empty. Qed.

End WithScopeFacts.

(** * [WithGroup] run on probe contexts *)

Section WithScopeRuns.
Import WithScope Probe.

Lemma Emplace_failure_leaves_group_witness :
  let g := {| entries_ := [entry (quiet "A")] |} in
  (exists (c : probe) (m : nat),
      construct (failing_enter "X" "bad") (world (start 0)) = (Returned c, m) /\
      (EnterWithScope c m).1 = Threw "bad") /\
  exists s',
    Emplace (failing_enter "X" "bad") g (start 0) = (Threw "bad", g, s') /\
    exit_hooks (events s') = exit_hooks (events (start 0)).
Proof.
  assert (exists (c : probe) (m : nat),
      construct (failing_enter "X" "bad") (world (start 0)) = (Returned c, m) /\
      (EnterWithScope c m).1 = Threw "bad") as Hfail
    by (exists (failing_enter "X" "bad"), 0; split; reflexivity).
  split; [exact Hfail|].
  apply (Emplace_failure_leaves_group (failing_enter "X" "bad")
           {| entries_ := [entry (quiet "A")] |} (start 0) "bad").
  right. exact Hfail.
Defined.

(** C1: three entries A, B, C are emplaced and no exception is in flight;
    C's exit hook throws.  The destructor does not throw that error: the
    process is terminated in C's [reset()], and the exit hooks of A and B
    are never invoked. *)
Theorem exit_failure_terminates_normal_path :
  let '(r0, g, s) :=
    emplace_all [quiet "A"; quiet "B"; failing_exit "C" "boom"]
      WithGroup_default (start 0) in
  let '(r, g', s') := WithGroup_dtor g s in
  r0 = Returned tt /\ size g = 3 /\ uncaught_exceptions s = 0 /\
  r = Fatal StdTerminate /\
  exit_hooks (events s') = [failing_exit "C" "boom"].
Proof. vm_compute. done. Qed.

(** C2: two entries are emplaced and the group is destroyed while one
    exception is in flight; the exit hook of the second entry throws.
    The error is not swallowed: the process is terminated, and the exit
    hook of the first entry is never invoked. *)
Theorem exit_failure_terminates_while_unwinding :
  let '(r0, g, s) :=
    emplace_all [quiet "A"; failing_exit "B" "boom"] WithGroup_default (start 1) in
  let '(r, g', s') := WithGroup_dtor g s in
  r0 = Returned tt /\ size g = 2 /\ uncaught_exceptions s = 1 /\
  r = Fatal StdTerminate /\
  exit_hooks (events s') = [failing_exit "B" "boom"].
Proof. vm_compute. done. Qed.

(** C3: after three successful [Emplace] calls, of A, B and C, where B's
    exit hook throws, destroying the group invokes the exit hooks of C
    and B only; the reverse of the emplacement order is C, B, A. *)
Theorem exit_failure_cuts_teardown_short :
  let argss := [quiet "A"; failing_exit "B" "boom"; quiet "C"] in
  let '(r0, g, s) := emplace_all argss WithGroup_default (start 0) in
  let '(r, g', s') := WithGroup_dtor g s in
  r0 = Returned tt /\ size g = 3 /\
  r = Fatal StdTerminate /\
  exit_hooks (events s') = [quiet "C"; failing_exit "B" "boom"] /\
  exit_hooks (events s') <> rev argss.
Proof. vm_compute. done. Qed.

(** C7: three entries A, B, C are emplaced and C's exit hook throws.
    The destructor of the group does not complete: it neither returns nor
    throws, the process is terminated in C's [reset()], and at that point
    the group still holds A and B, so its [size()] is 2, not 0. *)
Theorem exit_failure_leaves_entries_behind :
  let '(r0, g, s) :=
    emplace_all [quiet "A"; quiet "B"; failing_exit "C" "boom"]
      WithGroup_default (start 0) in
  let '(r, g', s') := WithGroup_dtor g s in
  r0 = Returned tt /\ size g = 3 /\
  r = Fatal StdTerminate /\ completed r = false /\
  entries_ g' = [entry (quiet "A"); entry (quiet "B")] /\ size g' = 2.
Proof. vm_compute. done. Qed.

(** C10: a group g with entries A and B, where B's exit hook throws, is
    moved into a new group h.  h holds A and B, g holds nothing and its
    destruction invokes no hook; the destruction of h invokes B's exit
    hook and is terminated there, so A's exit hook is never invoked. *)
Theorem moved_group_teardown_cut_short :
  let '(r0, g, s) :=
    emplace_all [quiet "A"; failing_exit "B" "boom"] WithGroup_default (start 0) in
  let '(h, g_moved) := WithGroup_move_ctor g in
  let '(rg, _, sg) := WithGroup_dtor g_moved s in
  let '(rh, _, sh) := WithGroup_dtor h sg in
  r0 = Returned tt /\
  WithGroup_move_assign WithGroup_default g s = (Returned tt, (h, g_moved), s) /\
  entries_ h = [entry (quiet "A"); entry (failing_exit "B" "boom")] /\
  size g_moved = 0 /\
  rg = Returned tt /\ sg = s /\
  rh = Fatal StdTerminate /\
  exit_hooks (events sh) = [failing_exit "B" "boom"].
Proof. vm_compute. done. Qed.

End WithScopeRuns.

(** * Facts about [ScopeStack] *)

Section ScopeStackFacts.
Import ScopeStack.
Context {T V : Type} `{!DefaultConstructible T} `{!Allocator}.
Implicit Types (s : state T) (p body : prog T V) (l : loc) (c : cell T).

Lemma addrs_assign l x s : addrs (assign l x s) = addrs s.
Proof.
  unfold addrs, assign. simpl. rewrite map_map. apply map_ext.
  intros c. by case_bool_decide.
Qed.

Lemma deref_is_Some l s : is_Some (deref l s) <-> l ∈ addrs s.
Proof.
  unfold deref, addrs. rewrite fmap_is_Some, list_elem_of_fmap. split.
  - intros [c Hc]. apply find_some in Hc as [Hin Hl].
    apply bool_decide_eq_true in Hl. exists c. by rewrite list_elem_of_In.
  - intros (c & -> & Hin).
    destruct (find _ _) as [c'|] eqn:Hfind; [by eexists|].
    apply list_elem_of_In in Hin.
    eapply find_none in Hfind; [|done].
    by apply bool_decide_eq_false in Hfind.
Qed.

Lemma deref_None l s : deref l s = None -> l ∉ addrs s.
Proof.
  intros Hnone Hin. apply deref_is_Some in Hin as [x Hx]. congruence.
Qed.

Lemma last_addrs s : last (addrs s) = addr <$> last (stack_ s).
Proof. unfold addrs. by rewrite fmap_last. Qed.

Lemma stack_nonempty_size s : stack_ s <> [] <-> 1 <= size s.
Proof. unfold size. destruct (stack_ s); simpl; split; (done || lia). Qed.

Lemma stack_nonempty_addrs s s' :
  addrs s' = addrs s -> stack_ s <> [] -> stack_ s' <> [].
Proof.
  unfold addrs. intros Heq Hne Hnil. rewrite Hnil in Heq.
  destruct (stack_ s); [done|discriminate].
Qed.

Lemma Current_nonempty s :
  stack_ s <> [] -> exists l, Current s = Returned l /\ Current_const s = Returned l.
Proof.
  intros Hne. unfold Current, Current_const, back, empty.
  destruct (stack_ s) as [|c cs] using rev_ind; [done|].
  rewrite last_snoc. destruct (cs ++ [c]) eqn:Heq; [by destruct cs|].
  simpl. by eexists.
Qed.

Lemma good_run_refl {R} s (o : outcome R) :
  o <> Fatal InvariantViolation -> good_run s o s.
Proof. intros Ho. exists []. by rewrite app_nil_r. Qed.

Lemma good_run_seq {R R'} s (v : R) s1 (o : outcome R') s2 :
  good_run s (Returned v) s1 -> good_run s1 o s2 -> good_run s o s2.
Proof.
  intros (new1 & Ht1 & Ha1 & Hok1 & Hne1) (new2 & Ht2 & Ha2 & Hok2 & Hne2).
  specialize (Ha1 eq_refl). rewrite Ha1 in Hok2, Ha2.
  exists (new1 ++ new2). split_and!.
  - by rewrite Ht2, Ht1, app_assoc.
  - done.
  - by apply Forall_app.
  - intros Hne. destruct (Hne1 Hne) as [Hn1 _].
    destruct Hne2 as [Hn2 Ho]; [by eapply stack_nonempty_addrs|].
    split; [by apply Forall_app|done].
Qed.

(** One logged step that leaves the elements where they are. *)
Lemma good_run_step {R} s (o : outcome R) s' ev :
  trace s' = trace s ++ [ev] -> addrs s' = addrs s ->
  event_ok (addrs s) ev ->
  (stack_ s <> [] -> nonempty_ok ev /\ o <> Fatal InvariantViolation) ->
  good_run s o s'.
Proof.
  intros Ht Ha Hok Hne. exists [ev]. split_and!; try done.
  - by apply Forall_singleton.
  - intros Hs. destruct (Hne Hs). split; [by apply Forall_singleton|done].
Qed.

Lemma event_ok_base_mono (base more : list loc) (evs : list event) :
  Forall (event_ok (base ++ more)) evs -> Forall (event_ok base) evs.
Proof.
  intros Hok. eapply Forall_impl; [exact Hok|].
  intros [l|l| | | |l valid]; simpl; try done.
  - intros Hnot Hin. apply Hnot, elem_of_app. by left.
  - intros Himp Hin. apply Himp, elem_of_app. by left.
Qed.

Lemma emplace_back_addrs s : addrs (emplace_back s) = addrs s ++ [alloc (addrs s)].
Proof. unfold addrs, emplace_back. simpl. by rewrite map_app. Qed.

Lemma pop_back_addrs s base l :
  addrs s = base ++ [l] ->
  exists x,
    stack_ s = removelast (stack_ s) ++ [Cell l x] /\
    pop_back s = Some (State (removelast (stack_ s)) (trace s ++ [EvPop l])) /\
    map addr (removelast (stack_ s)) = base.
Proof.
  unfold addrs, pop_back.
  destruct (stack_ s) as [|c cs _] using rev_ind; [by destruct base|].
  rewrite map_app. simpl. intros [Hcs Hc]%app_inj_tail.
  rewrite last_snoc, removelast_last. destruct c as [a x]. simpl in *. subst a.
  by exists x.
Qed.

Lemma good_run_WithNewScope {R} (body : state T -> outcome R * state T) s o s' :
  (forall o2 s2, body (emplace_back s) = (o2, s2) -> good_run (emplace_back s) o2 s2) ->
  WithNewScope body s = (o, s') -> good_run s o s'.
Proof.
  intros Hbody. unfold WithNewScope.
  destruct (body (emplace_back s)) as [o2 s2] eqn:Hb.
  destruct (Hbody _ _ eq_refl) as (new & Ht & Ha & Hok & Hne).
  rewrite emplace_back_addrs in Ha, Hok.
  apply event_ok_base_mono in Hok.
  destruct Hne as [Hn Ho2]; [by simpl; destruct (stack_ s)|].
  assert (trace s2 = trace s ++ EvPush (alloc (addrs s)) :: new) as Ht2
    by (rewrite Ht; simpl; by rewrite <- app_assoc).
  assert (completed o2 = true ->
          exists s3, pop_back s2 = Some s3 /\ good_run s o2 s3) as Hpop.
  { intros Hc2.
    destruct (pop_back_addrs s2 _ _ (Ha Hc2)) as (x & _ & Hp & Hbase).
    eexists. split; [exact Hp|].
    exists (EvPush (alloc (addrs s)) :: new ++ [EvPop (alloc (addrs s))]).
    simpl. split_and!.
    - rewrite Ht2. by rewrite <- app_assoc.
    - done.
    - constructor; [done|]. apply Forall_app. split; [done|].
      apply Forall_singleton. simpl. apply alloc_fresh.
    - intros _. split; [|done].
      constructor; [done|]. apply Forall_app. split; [done|].
      by apply Forall_singleton. }
  destruct o2 as [v|e|f]; intros Hrun.
  - destruct Hpop as (s3 & Hp & Hgood); [done|]. rewrite Hp in Hrun. by simplify_eq.
  - destruct Hpop as (s3 & Hp & Hgood); [done|]. rewrite Hp in Hrun. by simplify_eq.
  - simplify_eq. exists (EvPush (alloc (addrs s)) :: new). split_and!; try done.
    + by constructor.
    + intros _. split; [by constructor|done].
Qed.

(** Every run of client code is a good run. *)
Lemma run_good p : forall s o s', run p s = (o, s') -> good_run s o s'.
Proof.
  induction p as [v|e|k IH|k IH|const k IH|l k IH|l x k IH|body IHbody k IH
                  |block IHblock handler IHhandler k IH];
    intros s o s'; simpl; intros Hrun.
  - simplify_eq. by apply good_run_refl.
  - simplify_eq. by apply good_run_refl.
  - eapply (good_run_seq _ tt); [|by eapply IH].
    apply good_run_step with (EvSize (size s)); try done.
    intros Hne. split; [by apply stack_nonempty_size|done].
  - eapply (good_run_seq _ tt); [|by eapply IH].
    apply good_run_step with (EvEmpty (empty s)); try done.
    intros Hne. split; [|done]. simpl. unfold empty. by destruct (stack_ s).
  - set (r := if const then Current_const s else Current s) in *.
    assert (stack_ s <> [] -> exists l, r = Returned l) as Hr.
    { intros Hne. destruct (Current_nonempty s Hne) as (l & Hc & Hcc).
      exists l. subst r. by destruct const. }
    destruct r as [l|e|f] eqn:Hreq.
    + eapply (good_run_seq _ tt); [|by eapply IH].
      apply good_run_step with (EvCurrent (Returned l)); try done.
      intros _. split; [by exists l|done].
    + simplify_eq.
      apply good_run_step with (EvCurrent (Threw e)); try done.
      intros Hne. by destruct (Hr Hne).
    + simplify_eq.
      apply good_run_step with (EvCurrent (Fatal f)); try done.
      intros Hne. by destruct (Hr Hne).
  - destruct (deref l s) as [x|] eqn:Hd.
    + eapply (good_run_seq _ tt); [|by eapply IH].
      by apply good_run_step with (EvDeref l true).
    + simplify_eq.
      apply good_run_step with (EvDeref l false); try done.
      simpl. intros Hin. by apply deref_None in Hd.
  - destruct (deref l s) as [y|] eqn:Hd.
    + eapply (good_run_seq _ tt); [|by eapply IH].
      apply good_run_step with (EvDeref l true); try done.
      apply (addrs_assign l x s).
    + simplify_eq.
      apply good_run_step with (EvDeref l false); try done.
      simpl. intros Hin. by apply deref_None in Hd.
  - destruct (WithNewScope (run body) s) as [o1 s1] eqn:Hscope.
    apply good_run_WithNewScope in Hscope; [|by auto].
    destruct o1 as [v|e|f]; simplify_eq; [|done..].
    eapply good_run_seq; [done|by eapply IH].
  - destruct (run block s) as [o1 s1] eqn:Hblock.
    apply IHblock in Hblock.
    destruct o1 as [v|e|f]; simplify_eq; [|..|done].
    + eapply good_run_seq; [done|by eapply IH].
    + assert (good_run s (Returned tt) s1) as Hcaught.
      { destruct Hblock as (new & ? & ? & ? & Hne). exists new. split_and!; try done.
        intros Hs. by destruct (Hne Hs). }
      destruct (run (handler e) s1) as [o2 s2] eqn:Hhandler.
      apply IHhandler in Hhandler.
      destruct o2 as [v|e'|f]; simplify_eq.
      * eapply good_run_seq; [done|]. eapply good_run_seq; [done|by eapply IH].
      * by eapply good_run_seq.
      * by eapply good_run_seq.
Qed.

Lemma Current_last s :
  Current s = match last (addrs s) with
              | Some l => Returned l
              | None => Fatal InvariantViolation
              end /\
  Current_const s = Current s.
Proof.
  rewrite last_addrs. unfold Current, Current_const, back, empty.
  destruct (stack_ s) as [|c cs _] using rev_ind; [done|].
  rewrite last_snoc. by destruct (cs ++ [c]) eqn:Heq; [destruct cs|].
Qed.

(** C8: both forms of [Current()] return the reference to the last
    element of a stack that has one, and end in the fatal invariant
    violation, without a value, on the empty stack. *)
Theorem Current_innermost_or_fatal s :
  Current s = match last (stack_ s) with
              | Some c => Returned (addr c)
              | None => Fatal InvariantViolation
              end /\
  Current_const s = match last (stack_ s) with
                    | Some c => Returned (addr c)
                    | None => Fatal InvariantViolation
                    end.
Proof.
  destruct (Current_last s) as [Hc Hcc]. rewrite Hcc, Hc, last_addrs.
  by destruct (last (stack_ s)).
Qed.

(** C4: [WithNewScope(body)] runs [body] on the stack with one more
    element, new and default-initialised, at its end.  When [body]
    returns, and when it throws, that element is still the last one; it
    is the one popped, the call ends as [body] did, and the stack has
    the elements and the size it had before the call. *)
Theorem WithNewScope_restores_stack body s o s2 :
  run body (emplace_back s) = (o, s2) -> completed o = true ->
  stack_ (emplace_back s) = stack_ s ++ [Cell (alloc (addrs s)) T_default] /\
  (alloc (addrs s) ∉ addrs s) /\
  exists x s',
    stack_ s2 = stack_ s' ++ [Cell (alloc (addrs s)) x] /\
    pop_back s2 = Some s' /\
    WithNewScope (run body) s = (o, s') /\
    addrs s' = addrs s /\ size s' = size s.
Proof.
  intros Hbody Ho. split; [done|]. split; [apply alloc_fresh|].
  destruct (run_good _ _ _ _ Hbody) as (new & _ & Ha & _).
  specialize (Ha Ho). rewrite emplace_back_addrs in Ha.
  destruct (pop_back_addrs _ _ _ Ha) as (x & Hstack & Hpop & Hbase).
  exists x, (State (removelast (stack_ s2)) (trace s2 ++ [EvPop (alloc (addrs s))])).
  split_and!; [exact Hstack|exact Hpop| |exact Hbase|].
  - unfold WithNewScope. rewrite Hbody, Hpop. by destruct o.
  - unfold size, addrs in *. simpl. apply (f_equal length) in Hbase.
    by rewrite !length_map in Hbase.
Qed.

(** C5: the address of an element of the stack, as [Current()] returned
    it, stays good through any run of client code, nested
    [WithNewScope] calls included: the run never pops that element and
    never finds a reference to it dangling; when the run returns or
    throws, every element is at the address it had, the reference can be
    used, and [Current()] returns what it returned before. *)
Theorem reference_stays_valid p s o s' l :
  l ∈ addrs s -> run p s = (o, s') ->
  (exists new, trace s' = trace s ++ new /\
               (EvPop l ∉ new) /\ (EvDeref l false ∉ new)) /\
  (completed o = true ->
     addrs s' = addrs s /\ is_Some (deref l s') /\
     Current s' = Current s /\ Current_const s' = Current_const s).
Proof.
  intros Hl Hrun. destruct (run_good _ _ _ _ Hrun) as (new & Ht & Ha & Hok & _).
  rewrite Forall_forall in Hok. split.
  - exists new. split_and!; [done|..].
    + intros Hin. by apply (Hok _ Hin).
    + intros Hin. by specialize (Hok _ Hin Hl).
  - intros Ho. specialize (Ha Ho). split_and!; [done|..].
    + apply deref_is_Some. by rewrite Ha.
    + destruct (Current_last s') as [-> _], (Current_last s) as [-> _].
      by rewrite Ha.
    + destruct (Current_last s') as [Hc ->], (Current_last s) as [Hc' ->].
      by rewrite Hc, Hc', Ha.
Qed.

(** C9, for the members the class declares: the constructor leaves
    exactly one element.  A run of client code, which uses those members
    and the references they return, on a stack with at least one element
    only ever sees
    [size() >= 1], [empty()] false and [Current()] returning; it does not
    pop any element that was there when it started, never ends in the
    failed check of [Current()], and leaves the size as it was. *)
Theorem public_interface_keeps_base_scope p s o s' :
  1 <= size s -> run p s = (o, s') ->
  size ScopeStack_ctor = 1 /\
  (exists new, trace s' = trace s ++ new /\
               Forall nonempty_ok new /\ Forall (event_ok (addrs s)) new) /\
  o <> Fatal InvariantViolation /\
  (completed o = true -> size s' = size s).
Proof.
  intros Hsize Hrun. split; [done|].
  destruct (run_good _ _ _ _ Hrun) as (new & Ht & Ha & Hok & Hne).
  destruct Hne as [Hn Ho]; [by apply stack_nonempty_size|].
  split_and!; [by exists new|done|].
  intros Hc. specialize (Ha Hc). unfold size.
  apply (f_equal length) in Ha. unfold addrs in Ha. by rewrite !length_map in Ha.
Qed.

End ScopeStackFacts.

(** * [ScopeStack] run on counters *)

Section ScopeStackRuns.
Import ScopeStack Probe.

Lemma WithNewScope_restores_stack_witness :
  let s : state nat := ScopeStack_ctor in
  exists o s2,
    run throwing_body (emplace_back s) = (o, s2) /\ completed o = true /\
    stack_ (emplace_back s) = stack_ s ++ [Cell (alloc (addrs s)) T_default] /\
    (alloc (addrs s) ∉ addrs s) /\
    exists x s',
      stack_ s2 = stack_ s' ++ [Cell (alloc (addrs s)) x] /\
      pop_back s2 = Some s' /\
      WithNewScope (run throwing_body) s = (o, s') /\
      addrs s' = addrs s /\ size s' = size s.
Proof.
  intros s. eexists _, _.
  split; [vm_compute; reflexivity|].
  split; [reflexivity|].
  apply (WithNewScope_restores_stack throwing_body s);
    [vm_compute; reflexivity | reflexivity].
Defined.

Lemma reference_stays_valid_witness :
  let s : state nat := ScopeStack_ctor in
  let l : loc := 1%positive in
  l ∈ addrs s /\
  exists o s',
    run nested_client s = (o, s') /\
    (exists new, trace s' = trace s ++ new /\
                 (EvPop l ∉ new) /\ (EvDeref l false ∉ new)) /\
    (completed o = true ->
       addrs s' = addrs s /\ is_Some (deref l s') /\
       Current s' = Current s /\ Current_const s' = Current_const s).
Proof.
  intros s l.
  assert (l ∈ addrs s) as Hl by (vm_compute; constructor).
  split; [exact Hl|].
  eexists _, _. split; [vm_compute; reflexivity|].
  apply (reference_stays_valid nested_client s); [exact Hl | vm_compute; reflexivity].
Defined.

Lemma public_interface_keeps_base_scope_witness :
  let s : state nat := ScopeStack_ctor in
  1 <= size s /\
  exists o s',
    run nested_client s = (o, s') /\
    size (ScopeStack_ctor : state nat) = 1 /\
    (exists new, trace s' = trace s ++ new /\
                 Forall nonempty_ok new /\ Forall (event_ok (addrs s)) new) /\
    o <> Fatal InvariantViolation /\
    (completed o = true -> size s' = size s).
Proof.
  intros s.
  assert (1 <= size s) as Hsize by (vm_compute; lia).
  split; [exact Hsize|].
  eexists _, _. split; [vm_compute; reflexivity|].
  apply (public_interface_keeps_base_scope nested_client s);
    [exact Hsize | vm_compute; reflexivity].
Defined.

(** What [nested_client] computes: the inner failure is caught, the base
    scope is the only one left, and it still holds what was written
    through the reference taken at the start. *)
Example nested_client_run :
  let '(o, s') := run nested_client (ScopeStack_ctor : state nat) in
  o = Returned 8 /\ stack_ s' = [Cell 1%positive 7].
Proof. vm_compute. done. Qed.

(** Against C9 as stated: the move constructor is a public operation of
    the class.  After [ScopeStack b(std::move(a))] on a new stack [a],
    [b] has the base element and [a] has none: [a.size()] is 0,
    [a.empty()] returns true, in client code too, and both forms of
    [a.Current()] end in the failed check. *)
Lemma moved_from_stack_is_empty :
  let '(b, a) := ScopeStack_move_ctor (ScopeStack_ctor : state nat) in
  size b = 1 /\ size a = 0 /\ empty a = true /\
  Current a = Fatal InvariantViolation /\
  Current_const a = Fatal InvariantViolation /\
  (run (CallEmpty (fun e => Return (if e then 1 else 0))) a).1 = Returned 1 /\
  (run (CallCurrent false (fun _ => Return 0)) a).1 = Fatal InvariantViolation.
Proof. vm_compute. done. Qed.

End ScopeStackRuns.

(** * More about [Emplace], the destructor and the move of a group *)

Section WithGroupMore.
Context {Ctx Args World : Type} `{!ContextType Ctx Args World}.
Import WithScope.
Implicit Types (g : WithGroup Ctx) (s : env Ctx World) (w : With Ctx).

(** What a constructor that returns has done. *)
Lemma With_ctor_returned args s w s1 :
  With_ctor args s = (Returned w, s1) ->
  exists m1,
    construct args (world s) = (Returned (ctx_ w), m1) /\
    EnterWithScope (ctx_ w) m1 = (Returned tt, world s1) /\
    events s1 = events s ++ [EnterHook (ctx_ w)] /\
    uncaught_exceptions s1 = uncaught_exceptions s.
Proof.
  unfold With_ctor, bind, in_world, emit, ret.
  destruct (construct args (world s)) as [[c| |] m1]; simpl; [|done..].
  destruct (EnterWithScope c m1) as [[[]| |] m2] eqn:Henter; simpl; [|done..].
  intros [= <- <-]. by exists m1.
Qed.

Lemma unique_ptr_reset_run w s :
  unique_ptr_reset w s =
  (match (ExitWithScope (ctx_ w) (world s)).1 with
   | Threw _ => Fatal StdTerminate
   | r => r
   end,
   set_world (ExitWithScope (ctx_ w) (world s)).2 (log (ExitHook (ctx_ w)) s)).
Proof.
  unfold unique_ptr_reset, noexcept. rewrite With_dtor_run.
  by destruct (ExitWithScope (ctx_ w) (world s)) as [[| |] ?].
Qed.

(** A constructor never invokes an exit hook, however it ends. *)
Lemma With_ctor_no_exit args s r s1 :
  With_ctor args s = (r, s1) ->
  exit_hooks (events s1) = exit_hooks (events s) /\
  uncaught_exceptions s1 = uncaught_exceptions s.
Proof.
  unfold With_ctor, bind, in_world, emit, ret.
  destruct (construct args (world s)) as [[c| |] m1]; simpl;
    [|by intros [= <- <-]..].
  destruct (EnterWithScope c m1) as [[[]| |] m2]; simpl; intros [= <- <-];
    simpl; unfold exit_hooks; rewrite omap_app; simpl; by rewrite app_nil_r.
Qed.

(** How a sequence of [Emplace] calls ends: the first [k] calls
    returned and built the group, and either there were no more calls or
    the next one failed in the constructor of [With]. *)
Lemma emplace_all_prefix argss :
  forall g s r g' s',
    emplace_all argss g s = (r, g', s') ->
    exists k ws s1,
      emplace_all (take k argss) g s = (Returned tt, g', s1) /\
      entries_ g' = entries_ g ++ ws /\ length ws = k /\
      events s1 = events s ++ map (fun w => EnterHook (ctx_ w)) ws /\
      uncaught_exceptions s1 = uncaught_exceptions s /\
      match r with
      | Returned _ => k = length argss /\ s' = s1
      | Threw e =>
          exists args, argss !! k = Some args /\ With_ctor args s1 = (Threw e, s')
      | Fatal f =>
          exists args, argss !! k = Some args /\ With_ctor args s1 = (Fatal f, s')
      end.
Proof.
  induction argss as [|args argss IH]; intros g s r g' s' Hrun; simpl in Hrun.
  - injection Hrun as <- <- <-. exists 0, [], s. by rewrite !app_nil_r.
  - unfold Emplace in Hrun.
    destruct (With_ctor args s) as [[w|e|f] sa] eqn:Hctor.
    + destruct (IH _ _ _ _ _ Hrun) as (k & ws & s1 & Hpre & Hws & Hlen & Hev & Hunc & Hr).
      apply With_ctor_returned in Hctor as Hw.
      destruct Hw as (m1 & _ & _ & Heva & Hunca).
      exists (S k), (w :: ws), s1. simpl in *. split_and!.
      * unfold Emplace. by rewrite Hctor.
      * by rewrite Hws, <- app_assoc.
      * by rewrite Hlen.
      * by rewrite Hev, Heva, <- app_assoc.
      * congruence.
      * destruct r as [[]|e|f]; [by destruct Hr as [-> ->] | exact Hr | exact Hr].
    + injection Hrun as <- <- <-. exists 0, [], s. rewrite !app_nil_r. simpl.
      split_and!; try done. by exists args.
    + injection Hrun as <- <- <-. exists 0, [], s. rewrite !app_nil_r. simpl.
      split_and!; try done. by exists args.
Qed.

Lemma exit_hooks_enters (evs : list (event Ctx)) (ws : list (With Ctx)) :
  exit_hooks (evs ++ map (fun w => EnterHook (ctx_ w)) ws) = exit_hooks evs.
Proof.
  unfold exit_hooks. rewrite omap_app.
  induction ws as [|w ws IH]; simpl in *; [by rewrite app_nil_r|done].
Qed.

(** X1: a sequence of [Emplace] calls never invokes an exit hook.  It
    ends with the group that its first [k] calls, which all returned,
    have built: the entries the group had, then one entry per call, in
    call order, with exactly the enter hooks of these entries logged, in
    call order.  Either [k] is the number of calls and the sequence
    returns, or call number [k] failed, in the constructor of [With], with
    the error the sequence ends in, and the calls after it were not
    made. *)
Theorem Emplace_sequence argss g s :
  let '(r, g', s') := emplace_all argss g s in
  exists k ws s1,
    emplace_all (take k argss) g s = (Returned tt, g', s1) /\
    entries_ g' = entries_ g ++ ws /\ length ws = k /\
    events s1 = events s ++ map (fun w => EnterHook (ctx_ w)) ws /\
    exit_hooks (events s') = exit_hooks (events s) /\
    uncaught_exceptions s' = uncaught_exceptions s /\
    match r with
    | Returned _ => k = length argss /\ s' = s1
    | Threw e =>
        exists args, argss !! k = Some args /\ With_ctor args s1 = (Threw e, s')
    | Fatal f =>
        exists args, argss !! k = Some args /\ With_ctor args s1 = (Fatal f, s')
    end.
Proof.
  destruct (emplace_all argss g s) as [[r g'] s'] eqn:Hrun.
  destruct (emplace_all_prefix _ _ _ _ _ _ Hrun)
    as (k & ws & s1 & Hpre & Hws & Hlen & Hev & Hunc & Hr).
  exists k, ws, s1. split_and!; try done.
  - destruct r as [[]|e|f].
    + destruct Hr as [_ ->]. by rewrite Hev, exit_hooks_enters.
    + destruct Hr as (args & _ & Hctor).
      apply With_ctor_no_exit in Hctor as [-> _]. by rewrite Hev, exit_hooks_enters.
    + destruct Hr as (args & _ & Hctor).
      apply With_ctor_no_exit in Hctor as [-> _]. by rewrite Hev, exit_hooks_enters.
  - destruct r as [[]|e|f].
    + by destruct Hr as [_ ->].
    + destruct Hr as (args & _ & Hctor).
      apply With_ctor_no_exit in Hctor as [_ ->]. done.
    + destruct Hr as (args & _ & Hctor).
      apply With_ctor_no_exit in Hctor as [_ ->]. done.
Qed.

(** The loop when the exit hook of every entry returns. *)
Lemma teardown_exits_return unwinding entries :
  Forall (fun w => forall m : World, (ExitWithScope (ctx_ w) m).1 = Returned tt)
         entries ->
  forall first_exc s, exists s',
    teardown unique_ptr_reset unwinding entries first_exc s =
      (Returned first_exc, [], s') /\
    events s' = events s ++
      flat_map (fun w => [PopBack (ctx_ w); ExitHook (ctx_ w)]) (rev entries) /\
    world s' =
      foldl (fun m w => (ExitWithScope (ctx_ w) m).2) (world s) (rev entries) /\
    uncaught_exceptions s' = uncaught_exceptions s.
Proof.
  induction entries as [|entry entries IH] using rev_ind; intros Hexit first_exc s.
  - rewrite teardown_nil. exists s. by rewrite app_nil_r.
  - rewrite Forall_app, Forall_singleton in Hexit.
    destruct Hexit as [Hrest Hentry].
    rewrite teardown_snoc, rev_unit, unique_ptr_reset_run. simpl.
    rewrite (Hentry (world s)).
    match goal with |- context [teardown _ _ _ _ ?s1] =>
      destruct (IH Hrest first_exc s1) as (s' & Hrun & Hev & Hw & Hunc) end.
    exists s'. split_and!; [done| |done|done].
    rewrite Hev. simpl. by rewrite <- !app_assoc.
Qed.

(** X2: when the exit hook of every entry returns, the destructor
    returns and leaves the group empty; it has popped and then exited
    every entry, the most recently emplaced first, passing the world from
    one exit hook to the next. *)
Theorem WithGroup_dtor_exits_in_reverse g s :
  Forall (fun w => forall m : World, (ExitWithScope (ctx_ w) m).1 = Returned tt)
         (entries_ g) ->
  exists s',
    WithGroup_dtor g s = (Returned tt, WithGroup_default, s') /\
    events s' = events s ++
      flat_map (fun w => [PopBack (ctx_ w); ExitHook (ctx_ w)]) (rev (entries_ g)) /\
    world s' =
      foldl (fun m w => (ExitWithScope (ctx_ w) m).2) (world s) (rev (entries_ g)) /\
    uncaught_exceptions s' = uncaught_exceptions s.
Proof.
  intros Hexit. unfold WithGroup_dtor, destroy_with.
  destruct (teardown_exits_return (bool_decide (0 < uncaught_exceptions s))
              _ Hexit None s) as (s' & -> & Hrest).
  by exists s'.
Qed.

(** Entries emplaced on top of a group are gone, and the world is back,
    by the time the loop reaches the entries the group had before, when
    every exit hook undoes what its constructor and enter hook did. *)
Lemma emplace_all_undone argss :
  Forall (fun args => forall (m m1 m2 : World) (c : Ctx),
            construct args m = (Returned c, m1) ->
            EnterWithScope c m1 = (Returned tt, m2) ->
            ExitWithScope c m2 = (Returned tt, m)) argss ->
  forall g s g' s1,
    emplace_all argss g s = (Returned tt, g', s1) ->
    forall unwinding first_exc, exists s2,
      teardown unique_ptr_reset unwinding (entries_ g') first_exc s1 =
        teardown unique_ptr_reset unwinding (entries_ g) first_exc s2 /\
      world s2 = world s /\
      uncaught_exceptions s2 = uncaught_exceptions s.
Proof.
  induction argss as [|args argss IH]; intros Hundo g s g' s1 Hrun unwinding first_exc.
  - simpl in Hrun. simplify_eq. by exists s1.
  - apply Forall_cons in Hundo as [Hargs Hrest]. simpl in Hrun.
    unfold Emplace in Hrun.
    destruct (With_ctor args s) as [[w|e|f] sa] eqn:Hctor; [|done..].
    apply With_ctor_returned in Hctor as (m1 & Hc & He & _ & Hunc).
    destruct (IH Hrest _ _ _ _ Hrun unwinding first_exc) as (s2 & -> & Hw2 & Hunc2).
    simpl. rewrite teardown_snoc, unique_ptr_reset_run. simpl.
    rewrite Hw2, (Hargs _ _ _ _ Hc He). simpl.
    eexists. split; [done|]. split; [done|]. simpl. congruence.
Qed.

(** X4: when every exit hook undoes what its constructor and enter hook
    did to the world, emplacing any number of contexts into a new group
    and destroying the group leaves the world as it was. *)
Theorem scoped_world_restored argss s g s1 :
  Forall (fun args => forall (m m1 m2 : World) (c : Ctx),
            construct args m = (Returned c, m1) ->
            EnterWithScope c m1 = (Returned tt, m2) ->
            ExitWithScope c m2 = (Returned tt, m)) argss ->
  emplace_all argss WithGroup_default s = (Returned tt, g, s1) ->
  exists s2,
    WithGroup_dtor g s1 = (Returned tt, WithGroup_default, s2) /\
    world s2 = world s.
Proof.
  intros Hundo Hrun. unfold WithGroup_dtor, destroy_with.
  destruct (emplace_all_undone _ Hundo _ _ _ _ Hrun
              (bool_decide (0 < uncaught_exceptions s1)) None)
    as (s2 & -> & Hw & _).
  simpl. rewrite teardown_nil. by exists s2.
Qed.

End WithGroupMore.

(** * More about the members of [ScopeStack] *)

Section ScopeStackMore.
Import ScopeStack.
Context {T V : Type} `{!DefaultConstructible T} `{!Allocator}.
Implicit Types (s : state T) (p body : prog T V) (l : loc) (c : cell T).

Lemma find_app_cells (f : cell T -> bool) (cs cs' : list (cell T)) :
  find f (cs ++ cs') = match find f cs with
                       | Some c => Some c
                       | None => find f cs'
                       end.
Proof. induction cs as [|c cs IH]; simpl; [done|]. by destruct (f c). Qed.

Lemma deref_app l (cs cs' : list (cell T)) (tr tr' : list event) :
  l ∈ map addr cs ->
  deref l (State (cs ++ cs') tr) = deref l (State cs tr').
Proof.
  intros Hin. unfold deref. simpl. rewrite find_app_cells.
  destruct (find _ cs) as [c|] eqn:Hfind; [done|].
  apply list_elem_of_fmap in Hin as (c & -> & Hc).
  apply list_elem_of_In in Hc. eapply find_none in Hfind; [|done].
  by apply bool_decide_eq_false in Hfind.
Qed.

(** X5: the three observers agree: [empty()] is true exactly when
    [size()] is 0, and both forms of [Current()] return, the reference to
    the last element, exactly when [empty()] is false. *)
Theorem observers_agree s :
  (empty s = true <-> size s = 0) /\
  (empty s = false <->
   exists l, Current s = Returned l /\ Current_const s = Returned l /\
             last (addrs s) = Some l).
Proof.
  destruct (Current_last s) as [Hc Hcc]. rewrite Hcc, Hc.
  unfold empty, size, addrs.
  destruct (stack_ s) as [|c cs _] using rev_ind.
  - simpl. split; [done|]. split; [done|]. by intros (l & ? & _).
  - rewrite map_app, length_app. simpl. rewrite last_snoc.
    destruct (cs ++ [c]) eqn:Heq; [by destruct cs|].
    split; [split; [done|lia]|]. split; [|done]. intros _. by eexists.
Qed.

(** What [stack_.emplace_back()] leaves. *)
Lemma emplace_back_state s :
  let s1 := emplace_back s in
  let l := alloc (addrs s) in
  size s1 = S (size s) /\
  Current s1 = Returned l /\ (l ∉ addrs s) /\
  deref l s1 = Some T_default /\
  forall l', l' ∈ addrs s -> l' ∈ addrs s1 /\ deref l' s1 = deref l' s.
Proof.
  intros s1 l. split_and!.
  - unfold size, s1, emplace_back. simpl. rewrite length_app. simpl. lia.
  - destruct (Current_last s1) as [-> _].
    unfold s1. by rewrite emplace_back_addrs, last_snoc.
  - apply alloc_fresh.
  - unfold deref, s1, emplace_back. simpl. rewrite find_app_cells.
    destruct (find _ (stack_ s)) as [c|] eqn:Hfind.
    + apply find_some in Hfind as [Hin Hl]. apply bool_decide_eq_true in Hl.
      destruct (alloc_fresh (addrs s)). fold l. rewrite <- Hl.
      apply list_elem_of_fmap. exists c. by rewrite list_elem_of_In.
    + simpl. by rewrite bool_decide_eq_true_2.
  - intros l' Hl'. split.
    + unfold s1. rewrite emplace_back_addrs. apply elem_of_app. by left.
    + unfold s1, emplace_back. destruct s as [cs tr]. simpl.
      by apply deref_app.
Qed.

Lemma pop_back_emplace_back s evs :
  pop_back (State (stack_ (emplace_back s)) evs) =
  Some (State (stack_ s) (evs ++ [EvPop (alloc (addrs s))])).
Proof.
  unfold pop_back, emplace_back. simpl. by rewrite last_snoc, removelast_last.
Qed.

(** X6: what a body sees when [WithNewScope] invokes it.  A body that
    asks for [size()], then for [Current()], and reads through the
    reference it gets, finds one scope more than its caller has, a
    reference to an element that is none of the caller's, and [T()] in
    it; a body that reads through a reference to one of the caller's
    elements finds what the caller would find.  In both cases the value
    the body computes is what [WithNewScope] returns, and the caller's
    elements are afterwards what they were. *)
Theorem new_scope_is_fresh s (f : nat -> loc -> T -> V) :
  let l := alloc (addrs s) in
  (l ∉ addrs s) /\
  (exists s',
     run (CallWithNewScope
            (CallSize (fun n =>
             CallCurrent false (fun r =>
             ReadRef r (fun x => Return (f n r x)))))
            Return) s =
       (Returned (f (S (size s)) l T_default), s') /\
     stack_ s' = stack_ s) /\
  forall l' x (g : T -> V),
    deref l' s = Some x ->
    exists s',
      run (CallWithNewScope (ReadRef l' (fun y => Return (g y))) Return) s =
        (Returned (g x), s') /\
      stack_ s' = stack_ s.
Proof.
  intros l. destruct (emplace_back_state s) as (Hsize & Hcur & Hfresh & Hnew & Hold).
  fold l in Hcur, Hnew, Hfresh.
  split; [done|]. split.
  - eexists. split; [|shelve]. simpl. unfold WithNewScope. simpl.
    change (Current (record ?ev (emplace_back s))) with (Current (emplace_back s)).
    rewrite Hcur. simpl.
    change (deref l (record ?ev1 (record ?ev2 (emplace_back s))))
      with (deref l (emplace_back s)).
    rewrite Hnew. simpl. rewrite Hsize.
    match goal with |- context [pop_back ?s2] =>
      change (pop_back s2)
        with (pop_back (State (stack_ (emplace_back s)) (trace s2))) end.
    rewrite pop_back_emplace_back. reflexivity.
    Unshelve. reflexivity.
  - intros l' x g Hx.
    assert (l' ∈ addrs s) as Hin by (apply deref_is_Some; by eexists).
    destruct (Hold l' Hin) as [_ Hsame]. rewrite Hx in Hsame.
    eexists. split; [|shelve]. simpl. unfold WithNewScope. simpl.
    rewrite Hsame. simpl.
    match goal with |- context [pop_back ?s2] =>
      change (pop_back s2)
        with (pop_back (State (stack_ (emplace_back s)) (trace s2))) end.
    rewrite pop_back_emplace_back. reflexivity.
    Unshelve. reflexivity.
Qed.


End ScopeStackMore.

Section ScopeStackDepth.
Import ScopeStack.
Context {T : Type} `{!DefaultConstructible T} `{!Allocator}.
Implicit Types (s : state T).

(** X9: [size()] counts the scopes that are open: called inside [n]
    nested [WithNewScope] bodies it returns [n] more than outside, the
    value travels out through all of them, and the stack is then as it
    was. *)
Theorem size_counts_nesting n s :
  exists s',
    run (nest n (CallSize Return)) s = (Returned (size s + n), s') /\
    addrs s' = addrs s.
Proof.
  revert s. induction n as [|n IH]; intros s; simpl.
  - eexists. split; [by rewrite Nat.add_0_r|done].
  - destruct (IH (emplace_back s)) as (s2 & Hrun & Ha).
    unfold WithNewScope. rewrite Hrun.
    rewrite emplace_back_addrs in Ha.
    destruct (pop_back_addrs _ _ _ Ha) as (x & _ & -> & Hbase).
    exists (State (removelast (stack_ s2))
                  (trace s2 ++ [EvPop (alloc (addrs s))])).
    split; [|exact Hbase].
    f_equal. f_equal. unfold size, emplace_back. simpl.
    rewrite length_app. simpl. lia.
Qed.

End ScopeStackDepth.

(** * Scopes that hold groups of contexts *)

Section ScopedGroupsFacts.
Import WithScope ScopedGroups.
Context {Ctx Args World : Type} `{!ContextType Ctx Args World}.
Implicit Types (g : WithGroup Ctx) (s : env Ctx World) (st : stack (Ctx := Ctx)).

Lemma exit_hooks_pairs (ws : list (With Ctx)) :
  exit_hooks (flat_map (fun w => [PopBack (ctx_ w); ExitHook (ctx_ w)]) ws) =
  map ctx_ ws.
Proof. induction ws as [|w ws IH]; simpl; [done|]. by rewrite <- IH. Qed.

(** A loop that runs to its end has returned and has exited every
    entry, the most recently emplaced first. *)
Lemma teardown_completed_log unwinding entries :
  forall first_exc s r rest s',
    teardown unique_ptr_reset unwinding entries first_exc s = (r, rest, s') ->
    completed r = true ->
    r = Returned first_exc /\
    events s' = events s ++
      flat_map (fun w => [PopBack (ctx_ w); ExitHook (ctx_ w)]) (rev entries) /\
    world s' =
      foldl (fun m w => (ExitWithScope (ctx_ w) m).2) (world s) (rev entries) /\
    uncaught_exceptions s' = uncaught_exceptions s.
Proof.
  induction entries as [|entry entries IH] using rev_ind;
    intros first_exc s r rest s' Hrun Hr.
  - rewrite teardown_nil in Hrun. simplify_eq. by rewrite app_nil_r.
  - rewrite teardown_snoc, unique_ptr_reset_run in Hrun. rewrite !rev_unit.
    simpl in Hrun.
    destruct (ExitWithScope (ctx_ entry) (world s)) as [[[]|e|f] m'] eqn:Hexit;
      simpl in Hrun; [|by simplify_eq..].
    destruct (IH _ _ _ _ _ Hrun Hr) as (-> & Hev & Hw & Hunc).
    split_and!; [done| | |done].
    + rewrite Hev. simpl. by rewrite <- !app_assoc.
    + rewrite Hw. simpl. by rewrite Hexit.
Qed.

Lemma WithGroup_dtor_completed_log g s r g' s' :
  WithGroup_dtor g s = (r, g', s') -> completed r = true ->
  r = Returned tt /\
  events s' = events s ++
    flat_map (fun w => [PopBack (ctx_ w); ExitHook (ctx_ w)]) (rev (entries_ g)) /\
  world s' =
    foldl (fun m w => (ExitWithScope (ctx_ w) m).2) (world s) (rev (entries_ g)) /\
  uncaught_exceptions s' = uncaught_exceptions s.
Proof.
  unfold WithGroup_dtor, destroy_with. intros Hrun Hr.
  destruct (teardown _ _ _ _ _) as [[r1 rest] s1] eqn:Hloop.
  assert (completed r1 = true) as Hr1
    by (destruct r1 as [[]| |]; by simplify_eq).
  destruct (teardown_completed_log _ _ _ _ _ _ _ Hloop Hr1) as (-> & Hev & Hw & Hunc).
  by simplify_eq.
Qed.

(** Emplacing into the innermost scope is emplacing into its group. *)
Lemma emplace_each_last argss :
  forall st g s,
    emplace_each argss (st ++ [g]) s =
    let '(r, g', s') := emplace_all argss g s in (r, st ++ [g'], s').
Proof.
  induction argss as [|args argss IH]; intros st g s; simpl; [done|].
  unfold Current_Emplace.
  rewrite bool_decide_eq_false_2 by (by destruct st).
  simpl. rewrite last_snoc, removelast_last.
  unfold Emplace. destruct (With_ctor args s) as [[w|e|f] s1]; [|done..].
  apply IH.
Qed.

(** X10: a scope whose body emplaces contexts into [Current()].  When
    [WithNewScope] completes, the stack of groups is what it was before
    the call.  The first [k] [Emplace] calls of the body returned and
    entered the contexts of [ws]; either these were all the calls and
    [WithNewScope] returns, or call number [k] threw and [WithNewScope]
    throws the same error.  From the state the body ended in, the
    contexts of [ws], all of them and no others, were then removed and
    exited, the most recently entered first, each exit hook running in
    the world the previous one left. *)
Theorem scope_exits_what_it_entered argss st s o st' s' :
  WithNewScope (emplace_each argss) st s = (o, st', s') ->
  completed o = true ->
  st' = st /\
  uncaught_exceptions s' = uncaught_exceptions s /\
  exists k ws s1 s2,
    emplace_all (take k argss) WithGroup_default s =
      (Returned tt, {| entries_ := ws |}, s1) /\
    length ws = k /\
    match o with
    | Returned _ => k = length argss /\ s2 = s1
    | Threw e =>
        exists args, argss !! k = Some args /\ With_ctor args s1 = (Threw e, s2)
    | Fatal _ => False
    end /\
    events s' = events s2 ++
      flat_map (fun w => [PopBack (ctx_ w); ExitHook (ctx_ w)]) (rev ws) /\
    world s' = foldl (fun m w => (ExitWithScope (ctx_ w) m).2) (world s2) (rev ws) /\
    exit_hooks (events s') = exit_hooks (events s) ++ rev (map ctx_ ws).
Proof.
  unfold WithNewScope. rewrite emplace_each_last.
  destruct (emplace_all argss WithGroup_default s) as [[r g'] sb] eqn:Hbody.
  destruct (emplace_all_prefix _ _ _ _ _ _ Hbody)
    as (k & ws & s1 & Hpre & Hws & Hlen & Hev1 & Hunc1 & Hr).
  destruct g' as [entries]. simpl in Hws. subst entries.
  unfold pop_back. rewrite last_snoc, removelast_last.
  assert (forall evs : list (event Ctx),
            exit_hooks (evs ++ flat_map (fun w => [PopBack (ctx_ w); ExitHook (ctx_ w)])
                                        (rev ws)) =
            exit_hooks evs ++ rev (map ctx_ ws)) as Hexits.
  { intros evs. unfold exit_hooks at 1. rewrite omap_app.
    fold (exit_hooks evs).
    fold (exit_hooks (flat_map (fun w => [PopBack (ctx_ w); ExitHook (ctx_ w)])
                        (rev ws))).
    by rewrite exit_hooks_pairs, map_rev. }
  destruct r as [[]|e|f]; [| |by intros [= <- <- <-]].
  - destruct Hr as [Hk ->].
    destruct (WithGroup_dtor _ s1) as [[rd gd] sd] eqn:Hd.
    destruct rd as [[]| |]; intros [= <- <- <-] Ho; [|done..].
    destruct (WithGroup_dtor_completed_log _ _ _ _ _ Hd eq_refl)
      as (_ & Hev & Hw & Hunc).
    simpl in Hev, Hw.
    split_and!; [done|congruence|]. exists k, ws, s1, s1.
    split_and!; try done.
    by rewrite Hev, Hexits, Hev1, exit_hooks_enters.
  - destruct Hr as (args & Hargs & Hctor).
    destruct (WithGroup_dtor _ _) as [[rd gd] sd] eqn:Hd.
    destruct rd as [[]| |]; intros [= <- <- <-] Ho; [|done..].
    destruct (WithGroup_dtor_completed_log _ _ _ _ _ Hd eq_refl)
      as (_ & Hev & Hw & Hunc).
    simpl in Hev, Hw.
    apply With_ctor_no_exit in Hctor as Hsb. destruct Hsb as [Hexit Huncb].
    split_and!; [done|simpl; congruence|]. exists k, ws, s1, sb.
    split_and!; try done.
    + by exists args.
    + simpl. by rewrite Hev, Hexits, Hexit, Hev1, exit_hooks_enters.
Qed.

End ScopedGroupsFacts.

(** * The further facts on probe contexts and counters *)

Section MoreRuns.
Import Probe.

Lemma WithGroup_dtor_exits_in_reverse_witness :
  let g := {| WithScope.entries_ := [entry (quiet "A"); entry (quiet "B")] |} in
  let s := start 0 in
  Forall (fun w => forall m : nat,
            (ExitWithScope (WithScope.ctx_ w) m).1 = Returned tt)
         (WithScope.entries_ g) /\
  exists s',
    WithScope.WithGroup_dtor g s = (Returned tt, WithScope.WithGroup_default, s') /\
    WithScope.events s' = WithScope.events s ++
      flat_map (fun w => [WithScope.PopBack (WithScope.ctx_ w);
                          WithScope.ExitHook (WithScope.ctx_ w)])
               (rev (WithScope.entries_ g)) /\
    WithScope.world s' =
      foldl (fun m w => (ExitWithScope (WithScope.ctx_ w) m).2)
            (WithScope.world s) (rev (WithScope.entries_ g)) /\
    WithScope.uncaught_exceptions s' = WithScope.uncaught_exceptions s.
Proof.
  intros g s.
  assert (Forall (fun w => forall m : nat,
                    (ExitWithScope (WithScope.ctx_ w) m).1 = Returned tt)
                 (WithScope.entries_ g)) as Hexit
    by (repeat constructor).
  split; [exact Hexit|].
  exact (WithGroup_dtor_exits_in_reverse g s Hexit).
Defined.


Lemma scoped_world_restored_witness :
  let argss := [quiet "A"; quiet "B"] in
  let s := start 0 in
  Forall (fun args => forall (m m1 m2 : nat) (c : probe),
            construct args m = (Returned c, m1) ->
            EnterWithScope c m1 = (Returned tt, m2) ->
            ExitWithScope c m2 = (Returned tt, m)) argss /\
  exists g s1,
    WithScope.emplace_all argss WithScope.WithGroup_default s = (Returned tt, g, s1) /\
    exists s2,
      WithScope.WithGroup_dtor g s1 = (Returned tt, WithScope.WithGroup_default, s2) /\
      WithScope.world s2 = WithScope.world s.
Proof.
  intros argss s.
  assert (Forall (fun args => forall (m m1 m2 : nat) (c : probe),
            construct args m = (Returned c, m1) ->
            EnterWithScope c m1 = (Returned tt, m2) ->
            ExitWithScope c m2 = (Returned tt, m)) argss) as Hundo
    by (repeat constructor; intros m m1 m2 c [= <- <-] [= <-]; reflexivity).
  split; [exact Hundo|].
  eexists _, _. split; [vm_compute; reflexivity|].
  apply (scoped_world_restored argss s); [exact Hundo | vm_compute; reflexivity].
Defined.


Lemma scope_exits_what_it_entered_witness :
  let argss := [quiet "A"; failing_enter "B" "bad"; quiet "C"] in
  let st := ScopedGroups.ScopeStack_ctor in
  let s := start 0 in
  exists o st' s',
    ScopedGroups.WithNewScope (ScopedGroups.emplace_each argss) st s = (o, st', s') /\
    completed o = true /\
    st' = st /\
    WithScope.uncaught_exceptions s' = WithScope.uncaught_exceptions s /\
    exists k ws s1 s2,
      WithScope.emplace_all (take k argss) WithScope.WithGroup_default s =
        (Returned tt, {| WithScope.entries_ := ws |}, s1) /\
      length ws = k /\
      match o with
      | Returned _ => k = length argss /\ s2 = s1
      | Threw e =>
          exists args, argss !! k = Some args /\
                       WithScope.With_ctor args s1 = (Threw e, s2)
      | Fatal _ => False
      end /\
      WithScope.events s' = WithScope.events s2 ++
        flat_map (fun w => [WithScope.PopBack (WithScope.ctx_ w);
                            WithScope.ExitHook (WithScope.ctx_ w)]) (rev ws) /\
      WithScope.world s' =
        foldl (fun m w => (ExitWithScope (WithScope.ctx_ w) m).2)
              (WithScope.world s2) (rev ws) /\
      WithScope.exit_hooks (WithScope.events s') =
        WithScope.exit_hooks (WithScope.events s) ++ rev (map WithScope.ctx_ ws).
Proof.
  intros argss st s.
  destruct (ScopedGroups.WithNewScope (ScopedGroups.emplace_each argss) st s)
    as [[o st'] s'] eqn:Hrun.
  assert (completed o = true) as Ho
    by (vm_compute in Hrun; by injection Hrun as <- _ _).
  exists o, st', s'. split; [reflexivity|]. split; [exact Ho|].
  exact (scope_exits_what_it_entered argss st s o st' s' Hrun Ho).
Defined.

(** What the scope of the last witness does: A is entered, B's enter
    hook throws, and A is exited on the way out. *)
Example scope_with_failing_enter :
  let '(o, st', s') :=
    ScopedGroups.WithNewScope
      (ScopedGroups.emplace_each [quiet "A"; failing_enter "B" "bad"; quiet "C"])
      ScopedGroups.ScopeStack_ctor (start 0) in
  o = Threw "bad" /\ st' = ScopedGroups.ScopeStack_ctor /\
  WithScope.events s' =
    [WithScope.EnterHook (quiet "A");
     WithScope.EnterHook (failing_enter "B" "bad");
     WithScope.PopBack (quiet "A"); WithScope.ExitHook (quiet "A")].
Proof. vm_compute. done. Qed.

End MoreRuns.
